(** * The tracedb storage adapter (db/tracedb/adapter.go)

    A shallow embedding of the adapter that binds the message store of
    [trace] to the embedded database [tracedb], and the properties of its
    Open / Close / Put / PutWithID / Get / Delete / GenID operations.

    The adapter is glue: every operation delegates to the database library
    (package [tracedb] and [tracedb/message]), to [encoding/json], to [os]
    and to the logger.  Those collaborators are not part of the adapter's
    source; they appear here as the interfaces [Storage] and [Host], and the
    adapter is defined over any implementation of them. *)

From Stdlib Require Import ZArith List String Bool Lia.
From Stdlib.Strings Require Import Byte.
Import ListNotations.
Local Open Scope Z_scope.
Local Open Scope string_scope.

Set Implicit Arguments.

(** ** Go values *)

(** A Go [[]byte]: [None] is the nil slice, [Some l] a slice holding [l]. *)
Definition bytes := option (list byte).

Definition len (b : bytes) : nat :=
  match b with
  | None => 0%nat
  | Some l => List.length l
  end.

Definition bytes_of_string (s : string) : bytes := Some (list_byte_of_string s).

(** The Go [error] interface, reduced to what the adapter observes of it:
    the message, as [errors.New] builds it and [Error()] reads it. *)
Inductive error := errors_New (msg : string).

Definition Error (e : error) : string := let 'errors_New msg := e in msg.

(** [uint32(limit)] for a Go [int]: the low 32 bits. *)
Definition uint32 (n : Z) : Z := n mod 2 ^ 32.

(** What a call does: it returns, it panics (nil pointer dereference), or
    the iteration budget of the model is exhausted before it returns. *)
Inductive outcome (A : Type) :=
| Returns (a : A)
| Panics
| OutOfFuel.
Arguments Panics {A}.
Arguments OutOfFuel {A}.

(** ** Constants of the adapter *)

Definition defaultDatabase : string := "trace".
Definition adapterName : string := "tracedb".
Definition maxResults : Z := 1024.
Definition maxTTL : string := "24h".

Record configType := { Dir : string; ValueDir : string }.

(** ** Types of the database library used by the adapter *)

(** [message.Entry], with the fields the adapter sets. *)
Record Entry := {
  ID : bytes;
  Topic : bytes;
  Payload : bytes;
  Contract : Z
}.

(** [tracedb.Query], with the fields the adapter sets. *)
Record Query := {
  qTopic : bytes;
  qContract : Z;
  qLimit : Z
}.

(** [collection.Payload]: a byte slice. *)
Definition collection_Payload := bytes.

(** One line of the log: the tag and the message given to [log.Error]. *)
Definition LogLine := (string * string)%type.

(** [log.Error(tag, msg)] appends a line to the log. *)
Definition log_Error (tag msg : string) (lg : list LogLine) : list LogLine :=
  (lg ++ [(tag, msg)])%list.

(** ** The collaborators *)

(** The database library.  [DB], [Batch] and [ItemIterator] are the states
    of the objects behind the pointers the adapter holds; a method is a
    function on the state of its receiver.  A method called through a nil
    pointer has no state to read: the adapter's operations panic there. *)
Class Storage := {
  DB : Type;
  Batch : Type;
  ItemIterator : Type;
  Clock : Type;
  (* db.Batch(fn): runs fn on a new batch of db and returns its error *)
  DB_Batch : DB -> (Batch -> Batch * option error) -> DB * option error;
  (* db.Items(query): an iterator, possibly nil, and an error *)
  DB_Items : DB -> Query -> option ItemIterator * option error;
  Batch_PutEntry : Batch -> Entry -> Batch;
  Batch_DeleteEntry : Batch -> Entry -> Batch;
  Batch_Write : Batch -> Batch * option error;
  It_First : ItemIterator -> ItemIterator;
  It_Valid : ItemIterator -> bool;
  It_Next : ItemIterator -> ItemIterator;
  It_Error : ItemIterator -> option error;
  (* it.Item().Value() *)
  It_Item_Value : ItemIterator -> bytes;
  (* message.GenID, which may read the time *)
  m_GenID : Clock -> Entry -> bytes
}.

(** The host: JSON decoding of the configuration, the file system, and the
    opening and closing of a database in it. *)
Class Host (L : Storage) := {
  World : Type;
  json_Unmarshal : string -> error + configType;
  os_MkdirAll : string -> Z -> World -> World * option error;
  (* tracedb.Open(path, nil): a database handle, possibly nil, and an error *)
  tracedb_Open : string -> World -> World * (option DB * option error);
  (* db.Close() *)
  DB_Close : DB -> World -> World * option error
}.

(** ** The adapter *)

Section Adapter.

Context {L : Storage}.

(** [type adapter struct { db *tracedb.DB; version int }] *)
Record adapter := {
  db : option DB;
  version : Z
}.

(** [&adapter{}], as [init] registers it. *)
Definition fresh : adapter := {| db := None; version := 0 |}.

Definition set_db (a : adapter) (d : DB) : adapter :=
  {| db := Some d; version := version a |}.

Section Lifecycle.

Context {H : Host L}.

(** What [Open] and [Close] act on besides the adapter: the world of
    the host and the log. *)
Record Env := {
  world : World;
  logged : list LogLine
}.

Definition Open (a : adapter) (jsonconfig : string) (env : Env)
  : adapter * Env * option error :=
  match db a with
  | Some _ => (a, env, Some (errors_New "tracedb adapter is already connected"))
  | None =>
      match json_Unmarshal jsonconfig with
      | inl err =>
          (a, env,
           Some (errors_New ("tracedb adapter failed to parse config: " ++ Error err)))
      | inr config =>
          let (w1, mkerr) := os_MkdirAll (Dir config) 511 (world env) in
          let lg1 :=
            match mkerr with
            | Some _ => log_Error "adapter.Open" "Unable to create db dir" (logged env)
            | None => logged env
            end in
          let '(w2, (d, err)) := tracedb_Open (Dir config ++ "/" ++ defaultDatabase) w1 in
          let a' := {| db := d; version := version a |} in
          match err with
          | Some e =>
              (a',
               {| world := w2; logged := log_Error "adapter.Open" "Unable to open db" lg1 |},
               Some e)
          | None => (a', {| world := w2; logged := lg1 |}, None)
          end
      end
  end.

Definition Close (a : adapter) (env : Env) : adapter * Env * option error :=
  match db a with
  | Some d =>
      let (w, err) := DB_Close d (world env) in
      ({| db := None; version := -1 |}, {| world := w; logged := logged env |}, err)
  | None => (a, env, None)
  end.

End Lifecycle.

Definition IsOpen (a : adapter) : bool :=
  match db a with
  | Some _ => true
  | None => false
  end.

Definition GetName (a : adapter) : string := adapterName.

(** The function handed to [db.Batch] by [Put]. *)
Definition put_fn (contract : Z) (topic payload : bytes) (b : Batch)
  : Batch * option error :=
  let b := Batch_PutEntry b
             {| ID := None; Topic := topic; Payload := payload; Contract := contract |} in
  Batch_Write b.

Definition Put (a : adapter) (contract : Z) (topic payload : bytes)
  : outcome (adapter * option error) :=
  match db a with
  | None => Panics
  | Some d =>
      let (d', err) := DB_Batch d (put_fn contract topic payload) in
      Returns (set_db a d', err)
  end.

Definition put_with_id_fn (contract : Z) (topic messageId payload : bytes) (b : Batch)
  : Batch * option error :=
  let b := Batch_PutEntry b
             {| ID := messageId; Topic := topic; Payload := payload; Contract := contract |} in
  Batch_Write b.

Definition PutWithID (a : adapter) (contract : Z) (topic messageId payload : bytes)
  : outcome (adapter * option error) :=
  match db a with
  | None => Panics
  | Some d =>
      let (d', err) := DB_Batch d (put_with_id_fn contract topic messageId payload) in
      Returns (set_db a d', err)
  end.

(** The loop of [Get], from the position [it], with [matches] collected:
    [for ; it.Valid(); it.Next() { ... }]. *)
Fixpoint Get_loop (fuel : nat) (it : ItemIterator) (matches : list collection_Payload)
         (lg : list LogLine)
  : outcome (list collection_Payload * option error * list LogLine) :=
  match fuel with
  | O => OutOfFuel
  | S fuel' =>
      if It_Valid it then
        match It_Error it with
        | Some err =>
            Returns ([], Some err,
                     log_Error "adapter.Query" ("unable to query db: " ++ Error err) lg)
        | None => Get_loop fuel' (It_Next it) (matches ++ [It_Item_Value it])%list lg
        end
      else Returns (matches, None, lg)
  end.

(** [Get] after the call of [db.Items]: the iterator is used, the error
    is not. *)
Definition Get_from (fuel : nat) (r : option ItemIterator * option error)
           (lg : list LogLine)
  : outcome (list collection_Payload * option error * list LogLine) :=
  let (it, err) := r in
  match it with
  | None => Panics
  | Some it => Get_loop fuel (It_First it) [] lg
  end.

Definition Get (fuel : nat) (a : adapter) (contract : Z) (topic : bytes) (limit : Z)
           (lg : list LogLine)
  : outcome (list collection_Payload * option error * list LogLine) :=
  match db a with
  | None => Panics
  | Some d =>
      Get_from fuel
        (DB_Items d {| qTopic := topic; qContract := contract; qLimit := uint32 limit |})
        lg
  end.

Definition GenID (now : Clock) (contract : Z) (topic payload : bytes)
  : bytes * option error :=
  let id := m_GenID now
              {| ID := None; Topic := topic; Payload := payload; Contract := contract |} in
  match id with
  | None => (None, Some (errors_New "Key is empty."))
  | Some _ => (id, None)
  end.

Definition delete_fn (contract : Z) (topic messageId : bytes) (b : Batch)
  : Batch * option error :=
  let b := Batch_DeleteEntry b
             {| ID := messageId; Topic := topic; Payload := None; Contract := contract |} in
  Batch_Write b.

Definition Delete (a : adapter) (contract : Z) (topic messageId : bytes)
  : outcome (adapter * option error) :=
  match db a with
  | None => Panics
  | Some d =>
      let (d', err) := DB_Batch d (delete_fn contract topic messageId) in
      Returns (set_db a d', err)
  end.

End Adapter.

(** ** The storage engine of the specification

    The database library is not part of the adapter's source.  This module
    gives the engine the specification describes behind the adapter
    (sections 4.1, 4.3 and 4.4: IDGenerator, IndexStore, BatchWriter) as an
    implementation of [Storage], so that the adapter can be run against it. *)

Module SpecStore.

Definition to_list (b : bytes) : list byte :=
  match b with
  | None => []
  | Some l => l
  end.

(** Modelled from the spec: the composite key (contract, topic, id) of
    IndexStore; tracedb's index is not in the adapter's source. *)
Definition Key := (Z * list byte * list byte)%type.

(** Modelled from the spec: ids and topics "sort lexicographically"; the
    order on byte sequences that tracedb keys use is not in the adapter's
    source. *)
Fixpoint bytes_compare (x y : list byte) : comparison :=
  match x, y with
  | [], [] => Eq
  | [], _ :: _ => Lt
  | _ :: _, [] => Gt
  | a :: x', b :: y' =>
      match N.compare (Byte.to_N a) (Byte.to_N b) with
      | Eq => bytes_compare x' y'
      | c => c
      end
  end.

(** Modelled from the spec: "composite ordering by (contract, topic, id)";
    tracedb's key order is not in the adapter's source. *)
Definition key_compare (k k' : Key) : comparison :=
  let '(c, t, i) := k in
  let '(c', t', i') := k' in
  match Z.compare c c' with
  | Eq =>
      match bytes_compare t t' with
      | Eq => bytes_compare i i'
      | r => r
      end
  | r => r
  end.

Definition key_eqb (k k' : Key) : bool :=
  match key_compare k k' with
  | Eq => true
  | _ => false
  end.

(** Modelled from the spec: IndexStore, the "ordered mapping from composite
    key (contract, topic, id) to a record locator", the locator being the
    inline bytes of the payload; kept in descending key order.  tracedb's
    index is not in the adapter's source. *)
Definition Index := list (Key * bytes).

(** Modelled from the spec: IndexStore "Put(key, locator) - insert or
    overwrite"; tracedb's write path is not in the adapter's source. *)
Fixpoint index_put (k : Key) (v : bytes) (ix : Index) : Index :=
  match ix with
  | [] => [(k, v)]
  | (k', v') :: r =>
      match key_compare k k' with
      | Eq => (k, v) :: r
      | Gt => (k, v) :: (k', v') :: r
      | Lt => (k', v') :: index_put k v r
      end
  end.

(** Modelled from the spec: IndexStore "Delete(key) - remove if present;
    no-op otherwise"; tracedb's delete path is not in the adapter's
    source. *)
Definition index_delete (k : Key) (ix : Index) : Index :=
  filter (fun kv => negb (key_eqb k (fst kv))) ix.

(** Modelled from the spec: IndexStore "RangeScan(contract, topic, limit)
    returns at most limit most-recent entries for the given (contract,
    topic), in descending id order"; tracedb's query path is not in the
    adapter's source. *)
Definition RangeScan (contract : Z) (topic : list byte) (limit : Z) (ix : Index) : Index :=
  firstn (Z.to_nat limit)
    (filter (fun kv =>
               let '(c, t, _) := fst kv in
               Z.eqb c contract && match bytes_compare t topic with Eq => true | _ => false end)
            ix).

Definition byte_of_Z (z : Z) : byte :=
  match Byte.of_N (Z.to_N (z mod 256)) with
  | Some b => b
  | None => x00
  end.

(** The [n] low bytes of [z], most significant first. *)
Fixpoint big_endian (n : nat) (z : Z) : list byte :=
  match n with
  | O => []
  | S n' => (big_endian n' (z / 256) ++ [byte_of_Z z])%list
  end.

(** Modelled from the spec: IDGenerator, "GenerateID fails with
    EmptyKeyError when contract and topic and payload are all empty", and
    otherwise combines "a timestamp component with a content-derived
    fingerprint" of contract, topic and payload, the timestamp first so
    that ids sort by creation time.  The nil id is the failure, as the
    adapter tests it.  message.GenID is not in the adapter's source. *)
Definition GenerateID (now : Z) (e : Entry) : bytes :=
  if Z.eqb (Contract e) 0 && Nat.eqb (len (Topic e)) 0 && Nat.eqb (len (Payload e)) 0
  then None
  else Some (big_endian 8 now ++ big_endian 4 (Contract e)
               ++ to_list (Topic e) ++ to_list (Payload e))%list.

(** Modelled from the spec: the store that "owns all Entries": the index,
    and the reading of the clock that IDGenerator stamps fresh ids with.
    tracedb.DB is not in the adapter's source. *)
Record Store := {
  index : Index;
  time : Z
}.

(** Modelled from the spec: the "put/delete operations" a batch queues;
    tracedb's batch entries are not in the adapter's source. *)
Inductive Op :=
| OpPut (k : Key) (v : bytes)
| OpDelete (k : Key).

(** Modelled from the spec: a queued operation "reflected in IndexStore". *)
Definition apply_op (ix : Index) (o : Op) : Index :=
  match o with
  | OpPut k v => index_put k v ix
  | OpDelete k => index_delete k ix
  end.

(** Modelled from the spec: a Batch of BatchWriter, the operations queued
    on a store; [rejected] holds the error of an operation that could not
    be queued.  tracedb.Batch is not in the adapter's source. *)
Record SBatch := {
  base : Store;
  queue : list Op;
  committed : bool;
  rejected : option error
}.

(** Modelled from the spec: two errors of its taxonomy (section 7). *)
Definition EmptyKeyError : error := errors_New "EmptyKeyError".
Definition BatchClosedError : error := errors_New "BatchClosedError".

(** Modelled from the spec: BatchWriter "Begin() -> Batch". *)
Definition Begin (s : Store) : SBatch :=
  {| base := s; queue := []; committed := false; rejected := None |}.

(** Modelled from the spec: queueing on a batch, which "fails with
    BatchClosedError if operations are queued after Commit". *)
Definition enqueue (b : SBatch) (o : Op) : SBatch :=
  if committed b
  then {| base := base b; queue := queue b; committed := true;
          rejected := Some BatchClosedError |}
  else {| base := base b; queue := (queue b ++ [o])%list; committed := false;
          rejected := rejected b |}.

Definition reject (b : SBatch) (e : error) : SBatch :=
  {| base := base b; queue := queue b; committed := committed b; rejected := Some e |}.

(** Modelled from the spec: "Batch.PutEntry(Entry)"; an entry without id
    gets "a fresh id via IDGenerator", a supplied id is used verbatim; it
    "fails with BatchClosedError if operations are queued after Commit". *)
Definition PutEntry (b : SBatch) (e : Entry) : SBatch :=
  match ID e with
  | Some i => enqueue b (OpPut (Contract e, to_list (Topic e), i) (Payload e))
  | None =>
      match GenerateID (time (base b)) e with
      | Some i => enqueue b (OpPut (Contract e, to_list (Topic e), i) (Payload e))
      | None => reject b EmptyKeyError
      end
  end.

(** Modelled from the spec: "Batch.DeleteEntry(key)", the key being
    (contract, topic, id). *)
Definition DeleteEntry (b : SBatch) (e : Entry) : SBatch :=
  enqueue b (OpDelete (Contract e, to_list (Topic e), to_list (ID e))).

(** Modelled from the spec: "Batch.Commit() -> error": "either every
    queued put/delete is reflected in IndexStore ..., or (on failure)
    none are".  The in-memory store has no storage fault, so a commit
    fails only for a rejected operation. *)
Definition Commit (b : SBatch) : SBatch * option error :=
  match rejected b with
  | Some e => (b, Some e)
  | None =>
      ({| base := {| index := fold_left apply_op (queue b) (index (base b));
                     time := time (base b) |};
          queue := []; committed := true; rejected := None |},
       None)
  end.

(** Modelled from the spec: the "lazy, finite, restartable sequence" a
    range scan produces: the entries found, and those from the current
    position on.  tracedb.ItemIterator is not in the adapter's source. *)
Record Scan := {
  found : Index;
  rest : Index
}.

(** Modelled from the spec: the engine as the database library the adapter
    calls.  [db.Batch(fn)] begins a batch and runs [fn] on it; [db.Items]
    is the range scan of the query, which never fails here. *)
#[export] Instance storage : Storage := {|
  DB := Store;
  Batch := SBatch;
  ItemIterator := Scan;
  Clock := Z;
  DB_Batch := fun s fn => let (b, err) := fn (Begin s) in (base b, err);
  DB_Items := fun s q =>
    (Some {| found := RangeScan (qContract q) (to_list (qTopic q)) (qLimit q) (index s);
             rest := [] |},
     None);
  Batch_PutEntry := PutEntry;
  Batch_DeleteEntry := DeleteEntry;
  Batch_Write := Commit;
  It_First := fun it => {| found := found it; rest := found it |};
  It_Valid := fun it => match rest it with [] => false | _ :: _ => true end;
  It_Next := fun it => {| found := found it; rest := tl (rest it) |};
  It_Error := fun _ => None;
  It_Item_Value := fun it => match rest it with [] => None | kv :: _ => snd kv end;
  m_GenID := GenerateID
|}.

Definition empty : Store := {| index := []; time := 0 |}.

(** The adapter over a new, empty store. *)
Definition opened : adapter := {| db := Some empty; version := 0 |}.


(** [n] entries put under contract 1 and topic "a" through [PutWithID],
    with the ids 0, 1, ..., n-1 on two bytes. *)
Fixpoint filled (n : nat) : adapter :=
  match n with
  | O => opened
  | S n' =>
      match PutWithID (filled n') 1 (bytes_of_string "a")
              (Some (big_endian 2 (Z.of_nat n'))) (bytes_of_string "p") with
      | Returns (a, _) => a
      | _ => filled n'
      end
  end.

End SpecStore.

(** ** A scripted database

    An implementation of the collaborators whose answers are fixed in
    advance, used to run the adapter through the failures of the library:
    a failing batch, a failing query, a failing directory creation, a
    failing open or close. *)

Module Scripted.

(** One position of a scripted iterator: what [Error()] and
    [Item().Value()] answer there. *)
Record Position := {
  p_err : option error;
  p_value : bytes
}.

Definition item (s : string) : Position :=
  {| p_err := None; p_value := bytes_of_string s |}.

Definition failing (e : error) : Position :=
  {| p_err := Some e; p_value := None |}.

Record SDB := {
  batch_err : option error;
  items : option (list Position) * option error;
  close_err : option error
}.

#[export] Instance storage : Storage := {|
  DB := SDB;
  Batch := SDB;
  ItemIterator := list Position;
  Clock := unit;
  DB_Batch := fun d fn => let (_, err) := fn d in (d, err);
  DB_Items := fun d _ => items d;
  Batch_PutEntry := fun b _ => b;
  Batch_DeleteEntry := fun b _ => b;
  Batch_Write := fun b => (b, batch_err b);
  It_First := fun it => it;
  It_Valid := fun it => match it with [] => false | _ :: _ => true end;
  It_Next := fun it => tl it;
  It_Error := fun it => match it with [] => None | p :: _ => p_err p end;
  It_Item_Value := fun it => match it with [] => None | p :: _ => p_value p end;
  m_GenID := fun _ e => Topic e
|}.

Record SWorld := {
  mkdir_err : option error;
  open_result : SDB + error
}.

(** The scripted decoder knows one document, the empty object, which
    [json.Unmarshal] decodes to the zero configuration. *)
#[export] Instance host : Host storage := {|
  World := SWorld;
  json_Unmarshal := fun s =>
    if String.eqb s "{}" then inr {| Dir := ""; ValueDir := "" |}
    else inl (errors_New "invalid character");
  os_MkdirAll := fun _ _ w => (w, mkdir_err w);
  tracedb_Open := fun _ w =>
    match open_result w with
    | inl d => (w, (Some d, None))
    | inr e => (w, (None, Some e))
    end;
  DB_Close := fun d w => (w, close_err d)
|}.

Definition good : SDB :=
  {| batch_err := None; items := (Some [item "x"; item "y"], None); close_err := None |}.

Definition io_error : error := errors_New "input/output error".

(** A database whose query fails on its second entry. *)
Definition breaks_mid_scan : SDB :=
  {| batch_err := None;
     items := (Some [item "x"; failing io_error; item "z"], None);
     close_err := None |}.

(** Databases whose [Items] fails: with a nil iterator, and with an
    iterator that is not valid. *)
Definition items_fail_nil : SDB :=
  {| batch_err := None; items := (None, Some io_error); close_err := None |}.

Definition items_fail_invalid : SDB :=
  {| batch_err := None; items := (Some [], Some io_error); close_err := None |}.

Definition connected (d : SDB) : adapter := {| db := Some d; version := 0 |}.

Definition env_of (w : SWorld) : Env := {| world := w; logged := [] |}.

(** A world where the directory cannot be created and the database opens. *)
Definition no_mkdir : SWorld :=
  {| mkdir_err := Some (errors_New "permission denied"); open_result := inl good |}.

Definition healthy : SWorld :=
  {| mkdir_err := None; open_result := inl good |}.

Definition no_open : SWorld :=
  {| mkdir_err := None; open_result := inr io_error |}.

End Scripted.

(** ** A scripted host with two configurations *)

Module TwoConfigs.

Import Scripted.

(** The decoder is scripted: it knows two documents by name, [plain] and
    [with_values], which stand for configurations with the same [dir], the
    second with a [value_dir] as well. *)
Definition plain : string := "dir=data".
Definition with_values : string := "dir=data,value_dir=values".

#[export] Instance host : Host storage := {|
  World := SWorld;
  json_Unmarshal := fun s =>
    if String.eqb s plain then inr {| Dir := "data"; ValueDir := "" |}
    else if String.eqb s with_values then inr {| Dir := "data"; ValueDir := "values" |}
    else inl (errors_New "invalid character");
  os_MkdirAll := fun _ _ w => (w, mkdir_err w);
  tracedb_Open := fun _ w =>
    match open_result w with
    | inl d => (w, (Some d, None))
    | inr e => (w, (None, Some e))
    end;
  DB_Close := fun d w => (w, close_err d)
|}.

End TwoConfigs.

(** ** Vocabulary of the statements *)

Section Vocabulary.

Context {L : Storage}.

(** The iterator after [k] further calls of [Next]. *)
Fixpoint advance (k : nat) (it : ItemIterator) : ItemIterator :=
  match k with
  | O => it
  | S k' => advance k' (It_Next it)
  end.

(** The payloads at the first [k] positions from [it]. *)
Fixpoint collected (k : nat) (it : ItemIterator) : list collection_Payload :=
  match k with
  | O => []
  | S k' => It_Item_Value it :: collected k' (It_Next it)
  end.

(** The first [k] positions from [it] are valid and report no error. *)
Definition clean_prefix (k : nat) (it : ItemIterator) : Prop :=
  forall i, (i < k)%nat ->
            It_Valid (advance i it) = true /\ It_Error (advance i it) = None.

(** The query [Get] builds. *)
Definition query_of (contract : Z) (topic : bytes) (limit : Z) : Query :=
  {| qTopic := topic; qContract := contract; qLimit := uint32 limit |}.

(** What [Items] hands back when it fails, as far as [Get] can tell: no
    iterator, or an iterator with no valid position. *)
Definition unusable (oit : option ItemIterator) : Prop :=
  match oit with
  | None => True
  | Some it => It_Valid (It_First it) = false
  end.

(** The library convention for [tracedb.Open]: a nil error comes with a
    database handle. *)
Definition Open_yields_handle (H : Host L) : Prop :=
  forall path w w' d,
    tracedb_Open path w = (w', (d, None)) -> d <> None.

End Vocabulary.

(** ** Statements that do not hold of the adapter *)

(** An error reported in mid-scan comes back with the payloads collected
    before it. *)
Definition partial_results_returned : Prop :=
  forall (L : Storage) (fuel : nat) (a : adapter) (d : DB) contract topic limit lg
         (it : ItemIterator) (ierr : option error) (k : nat) (e : error),
    db a = Some d ->
    DB_Items d (query_of contract topic limit) = (Some it, ierr) ->
    (0 < k)%nat ->
    clean_prefix k (It_First it) ->
    It_Valid (advance k (It_First it)) = true ->
    It_Error (advance k (It_First it)) = Some e ->
    (k < fuel)%nat ->
    exists lg',
      Get fuel a contract topic limit lg
      = Returns (collected k (It_First it), Some e, lg').


(** [Open] returns an error only when the configuration does not parse or
    the call of [tracedb.Open] fails. *)
Definition Open_fails_only_on_parse_or_open : Prop :=
  forall (L : Storage) (H : Host L) (a : adapter) (jsonconfig : string) (env : Env)
         a' env' (e : error),
    Open a jsonconfig env = (a', env', Some e) ->
    (exists perr, json_Unmarshal jsonconfig = inl perr)
    \/ (exists config w1 mkerr w2 d,
           json_Unmarshal jsonconfig = inr config
           /\ os_MkdirAll (Dir config) 511 (world env) = (w1, mkerr)
           /\ tracedb_Open (Dir config ++ "/" ++ defaultDatabase) w1 = (w2, (d, Some e))).

(** [Get] with a limit above [maxResults] returns what it returns with the
    limit [maxResults]. *)
Definition limit_clamped : Prop :=
  forall (L : Storage) (fuel : nat) (a : adapter) contract topic limit lg,
    maxResults < limit ->
    Get fuel a contract topic limit lg = Get fuel a contract topic maxResults lg.

(** ** Sequences of calls

    A client of the adapter makes calls one after the other, each on the
    adapter, the world and the log the previous one left.  The errors the
    calls return are dropped here; a panic ends the sequence. *)

Section Calls.

Context {L : Storage} {H : Host L}.

Inductive call :=
| CallOpen (jsonconfig : string)
| CallClose
| CallPut (contract : Z) (topic payload : bytes)
| CallPutWithID (contract : Z) (topic messageId payload : bytes)
| CallGet (fuel : nat) (contract : Z) (topic : bytes) (limit : Z)
| CallDelete (contract : Z) (topic messageId : bytes).

Definition keep_env (env : Env) (r : outcome (adapter * option error))
  : outcome (adapter * Env) :=
  match r with
  | Returns (a', _) => Returns (a', env)
  | Panics => Panics
  | OutOfFuel => OutOfFuel
  end.

Definition run_call (c : call) (a : adapter) (env : Env) : outcome (adapter * Env) :=
  match c with
  | CallOpen jsonconfig =>
      let '(a', env', _) := Open a jsonconfig env in Returns (a', env')
  | CallClose =>
      let '(a', env', _) := Close a env in Returns (a', env')
  | CallPut contract topic payload => keep_env env (Put a contract topic payload)
  | CallPutWithID contract topic messageId payload =>
      keep_env env (PutWithID a contract topic messageId payload)
  | CallGet fuel contract topic limit =>
      match Get fuel a contract topic limit (logged env) with
      | Returns (_, _, lg) => Returns (a, {| world := world env; logged := lg |})
      | Panics => Panics
      | OutOfFuel => OutOfFuel
      end
  | CallDelete contract topic messageId => keep_env env (Delete a contract topic messageId)
  end.

Fixpoint run_calls (cs : list call) (a : adapter) (env : Env) : outcome (adapter * Env) :=
  match cs with
  | [] => Returns (a, env)
  | c :: cs' =>
      match run_call c a env with
      | Returns (a', env') => run_calls cs' a' env'
      | Panics => Panics
      | OutOfFuel => OutOfFuel
      end
  end.

End Calls.

(** ** Properties of the adapter over any database *)

Section AdapterFacts.

Context {L : Storage} {Hst : Host L}.

Lemma IsOpen_true (a : adapter) : IsOpen a = true <-> exists d, db a = Some d.
Proof.
  unfold IsOpen. destruct (db a) as [d|]; split; intro E.
  - now exists d.
  - reflexivity.
  - discriminate.
  - destruct E as [d E]. discriminate.
Qed.

Lemma IsOpen_false (a : adapter) : IsOpen a = false <-> db a = None.
Proof.
  unfold IsOpen. destruct (db a); split; intro E; try reflexivity; discriminate.
Qed.

Lemma IsOpen_set_db (a : adapter) (d : DB) : IsOpen (set_db a d) = true.
Proof. reflexivity. Qed.

(** *** The loop of [Get] *)

Lemma Get_loop_invalid fuel it matches lg :
  It_Valid it = false ->
  Get_loop (S fuel) it matches lg = Returns (matches, None, lg).
Proof. intro V. simpl. now rewrite V. Qed.

Lemma Get_loop_step fuel it matches lg :
  It_Valid it = true ->
  It_Error it = None ->
  Get_loop (S fuel) it matches lg
  = Get_loop fuel (It_Next it) (matches ++ [It_Item_Value it])%list lg.
Proof. intros V E. simpl. now rewrite V, E. Qed.

Lemma Get_loop_error fuel it matches lg e :
  It_Valid it = true ->
  It_Error it = Some e ->
  Get_loop (S fuel) it matches lg
  = Returns ([], Some e, log_Error "adapter.Query" ("unable to query db: " ++ Error e) lg).
Proof. intros V E. simpl. now rewrite V, E. Qed.

Lemma clean_prefix_next k it :
  clean_prefix (S k) it -> clean_prefix k (It_Next it).
Proof.
  intros C i Hi. apply (C (S i)). lia.
Qed.

(** Over a clean prefix the loop only collects. *)
Lemma Get_loop_clean_prefix k : forall fuel it matches lg,
  clean_prefix k it ->
  Get_loop (k + fuel) it matches lg
  = Get_loop fuel (advance k it) (matches ++ collected k it)%list lg.
Proof.
  induction k as [|k IH]; intros fuel it matches lg C.
  - simpl. now rewrite app_nil_r.
  - destruct (C 0%nat ltac:(lia)) as [V E]. simpl in V, E.
    change (S k + fuel)%nat with (S (k + fuel)).
    rewrite Get_loop_step by assumption.
    rewrite IH by now apply clean_prefix_next.
    simpl. now rewrite <- app_assoc.
Qed.

(** An error at a valid position ends the loop with the error alone,
    whatever was collected. *)
Lemma Get_loop_error_after k fuel it matches lg e :
  clean_prefix k it ->
  It_Valid (advance k it) = true ->
  It_Error (advance k it) = Some e ->
  (k < fuel)%nat ->
  Get_loop fuel it matches lg
  = Returns ([], Some e, log_Error "adapter.Query" ("unable to query db: " ++ Error e) lg).
Proof.
  intros C V E F.
  replace fuel with (k + S (fuel - S k))%nat by lia.
  rewrite Get_loop_clean_prefix by assumption.
  now apply Get_loop_error.
Qed.

(** A scan that ends without error returns all it collected. *)
Lemma Get_loop_complete k fuel it matches lg :
  clean_prefix k it ->
  It_Valid (advance k it) = false ->
  (k < fuel)%nat ->
  Get_loop fuel it matches lg = Returns ((matches ++ collected k it)%list, None, lg).
Proof.
  intros C V F.
  replace fuel with (k + S (fuel - S k))%nat by lia.
  rewrite Get_loop_clean_prefix by assumption.
  now apply Get_loop_invalid.
Qed.


(** The error of [Items] does not reach the result of [Get]. *)
Lemma Get_from_error_unused fuel oit (e e' : option error) lg :
  Get_from fuel (oit, e) lg = Get_from fuel (oit, e') lg.
Proof. reflexivity. Qed.

Lemma Get_open fuel a d contract topic limit lg :
  db a = Some d ->
  Get fuel a contract topic limit lg
  = Get_from fuel (DB_Items d (query_of contract topic limit)) lg.
Proof. intro E. unfold Get. now rewrite E. Qed.

(** [Get] sees of its limit the low 32 bits only. *)
Lemma Get_limit_uint32 fuel a contract topic limit limit' lg :
  uint32 limit = uint32 limit' ->
  Get fuel a contract topic limit lg = Get fuel a contract topic limit' lg.
Proof. intro E. unfold Get. now rewrite E. Qed.

(** C2, as the code has it.  When the iterator reports an error at a valid
    position after [k] entries were collected, [Get] returns no payload
    at all together with that error (and logs it): the entries collected
    so far are discarded. *)
Theorem Get_error_discards_partial_results
        fuel a d contract topic limit lg it ierr k e :
  db a = Some d ->
  DB_Items d (query_of contract topic limit) = (Some it, ierr) ->
  clean_prefix k (It_First it) ->
  It_Valid (advance k (It_First it)) = true ->
  It_Error (advance k (It_First it)) = Some e ->
  (k < fuel)%nat ->
  Get fuel a contract topic limit lg
  = Returns ([], Some e, log_Error "adapter.Query" ("unable to query db: " ++ Error e) lg).
Proof.
  intros A I C V E F.
  rewrite Get_open with (d := d) by assumption. rewrite I. simpl.
  now apply Get_loop_error_after with (k := k).
Qed.

(** C3.  [Get] does not look at the error returned by [db.Items] and goes
    on to use the iterator: its result is the same whatever that error is.
    So when [Items] fails, with error [e] and an iterator that is nil or
    not valid, [Get] panics (nil iterator) or returns no payload and a
    nil error (invalid iterator); in neither case does [e] reach the
    caller. *)
Theorem Get_drops_Items_error fuel a d contract topic limit lg oit e :
  db a = Some d ->
  DB_Items d (query_of contract topic limit) = (oit, Some e) ->
  unusable oit ->
  (0 < fuel)%nat ->
  (forall e', Get fuel a contract topic limit lg = Get_from fuel (oit, e') lg)
  /\ match oit with
     | None => Get fuel a contract topic limit lg = Panics
     | Some _ => Get fuel a contract topic limit lg = Returns ([], None, lg)
     end.
Proof.
  intros A I U F.
  rewrite Get_open with (d := d) by assumption. rewrite I. split.
  - intro e'. reflexivity.
  - destruct oit as [it|]; simpl in *.
    + destruct fuel as [|fuel]; [lia|]. now apply Get_loop_invalid.
    + reflexivity.
Qed.


End AdapterFacts.

(** ** The life cycle: Open, Close, IsOpen *)

Section LifecycleFacts.

Context {L : Storage} {H : Host L}.

Lemma Open_closed_parse_error (a : adapter) jsonconfig (env : Env) perr :
  db a = None ->
  json_Unmarshal jsonconfig = inl perr ->
  Open a jsonconfig env
  = (a, env, Some (errors_New ("tracedb adapter failed to parse config: " ++ Error perr))).
Proof. intros A P. unfold Open. now rewrite A, P. Qed.

Lemma Open_closed_parsed (a : adapter) jsonconfig (env : Env) config w1 mkerr w2 d oerr :
  db a = None ->
  json_Unmarshal jsonconfig = inr config ->
  os_MkdirAll (Dir config) 511 (world env) = (w1, mkerr) ->
  tracedb_Open (Dir config ++ "/" ++ defaultDatabase) w1 = (w2, (d, oerr)) ->
  exists lg,
    Open a jsonconfig env
    = ({| db := d; version := version a |}, {| world := w2; logged := lg |}, oerr)
    /\ (mkerr <> None -> In ("adapter.Open", "Unable to create db dir") lg)
    /\ (mkerr = None -> oerr = None -> lg = logged env).
Proof.
  intros A P M O. unfold Open. rewrite A, P, M, O.
  destruct oerr as [e|]; eexists; (split; [reflexivity|]); split.
  - intro N. unfold log_Error. apply in_or_app. left.
    destruct mkerr; [|congruence]. apply in_or_app. right. now left.
  - discriminate.
  - intro N. destruct mkerr; [|congruence].
    unfold log_Error. apply in_or_app. right. now left.
  - intros -> _. reflexivity.
Qed.

(** C5, as the code has it.  On an adapter that is not already open,
    [Open] returns an error only when the configuration does not parse
    (the parse error, wrapped) or when [tracedb.Open] fails (that error,
    as it is).  A failure of [os.MkdirAll] is logged and the database is
    opened all the same: the error [Open] returns is the one of
    [tracedb.Open], nil when the database opens. *)
Theorem Open_error_sources (a : adapter) jsonconfig (env : Env) :
  db a = None ->
  (forall perr,
      json_Unmarshal jsonconfig = inl perr ->
      Open a jsonconfig env
      = (a, env,
         Some (errors_New ("tracedb adapter failed to parse config: " ++ Error perr))))
  /\ (forall config w1 mkerr w2 d oerr,
         json_Unmarshal jsonconfig = inr config ->
         os_MkdirAll (Dir config) 511 (world env) = (w1, mkerr) ->
         tracedb_Open (Dir config ++ "/" ++ defaultDatabase) w1 = (w2, (d, oerr)) ->
         exists lg,
           Open a jsonconfig env
           = ({| db := d; version := version a |}, {| world := w2; logged := lg |}, oerr)
           /\ (mkerr <> None -> In ("adapter.Open", "Unable to create db dir") lg)
           /\ (mkerr = None -> oerr = None -> lg = logged env)).
Proof.
  intro A. split.
  - intros perr P. now apply Open_closed_parse_error.
  - intros. eapply Open_closed_parsed; eassumption.
Qed.

(** C6.  On an adapter that holds a database handle, [Open] fails with
    the already-connected error; the adapter, and with it the connection,
    the world and the log are as before. *)
Theorem Open_twice_fails (a : adapter) (d : DB) jsonconfig (env : Env) :
  db a = Some d ->
  Open a jsonconfig env
  = (a, env, Some (errors_New "tracedb adapter is already connected")).
Proof. intro A. unfold Open. now rewrite A. Qed.

(** C7.  On an adapter that holds no database handle, [Close] returns a
    nil error and changes nothing: not the adapter, not the world, not
    the log. *)
Theorem Close_closed_is_noop (a : adapter) (env : Env) :
  db a = None ->
  Close a env = (a, env, None).
Proof. intro A. unfold Close. now rewrite A. Qed.

Lemma Close_closes (a : adapter) (env : Env) :
  db (fst (fst (Close a env))) = None.
Proof.
  unfold Close. destruct (db a) as [d|] eqn:A; [|exact A].
  now destruct (DB_Close d (world env)).
Qed.

Lemma Open_success_was_closed (a : adapter) jsonconfig (env : Env) a' env' :
  Open a jsonconfig env = (a', env', None) ->
  db a = None.
Proof.
  unfold Open. destruct (db a); [discriminate|reflexivity].
Qed.

Lemma Open_success_handle (a : adapter) jsonconfig (env : Env) a' env' :
  Open_yields_handle H ->
  Open a jsonconfig env = (a', env', None) ->
  db a' <> None.
Proof.
  intros Y. unfold Open. destruct (db a); [discriminate|].
  destruct (json_Unmarshal jsonconfig) as [perr|config]; [discriminate|].
  destruct (os_MkdirAll (Dir config) 511 (world env)) as [w1 mkerr].
  destruct (tracedb_Open (Dir config ++ "/" ++ defaultDatabase) w1)
    as [w2 [d [e|]]] eqn:O; [discriminate|].
  intro E. injection E as <- _. simpl. now apply Y in O.
Qed.

(** C10.  [IsOpen] is true exactly when the adapter holds a database
    handle.  It is false on a fresh adapter; a call of [Open] that
    succeeds started from [IsOpen] false and ends with [IsOpen] true
    (given that the library returns a handle whenever it returns a nil
    error); after [Close], whatever it returns, [IsOpen] is false; and
    [Put], [PutWithID] and [Delete], when they return, leave [IsOpen] as
    it was. *)
Theorem IsOpen_tracks_handle :
  Open_yields_handle H ->
  (forall a : adapter, IsOpen a = true <-> exists d, db a = Some d)
  /\ IsOpen (fresh : adapter) = false
  /\ (forall (a : adapter) jsonconfig (env : Env) a' env',
         Open a jsonconfig env = (a', env', None) ->
         IsOpen a = false /\ IsOpen a' = true)
  /\ (forall (a : adapter) (env : Env), IsOpen (fst (fst (Close a env))) = false)
  /\ (forall (a a' : adapter) contract topic messageId payload err,
         (Put a contract topic payload = Returns (a', err)
          \/ PutWithID a contract topic messageId payload = Returns (a', err)
          \/ Delete a contract topic messageId = Returns (a', err)) ->
         IsOpen a' = IsOpen a).
Proof.
  intro Y. split; [exact IsOpen_true|]. split; [reflexivity|].
  split; [|split].
  - intros a jsonconfig env a' env' O. split.
    + apply IsOpen_false. now apply Open_success_was_closed in O.
    + apply (Open_success_handle _ _ _ Y) in O.
      unfold IsOpen. destruct (db a'); congruence.
  - intros a env. apply IsOpen_false, Close_closes.
  - intros a a' contract topic messageId payload err.
    unfold Put, PutWithID, Delete, IsOpen.
    destruct (db a) as [d|]; [|intros [E|[E|E]]; discriminate].
    destruct (DB_Batch d (put_fn contract topic payload)).
    destruct (DB_Batch d (put_with_id_fn contract topic messageId payload)).
    destruct (DB_Batch d (delete_fn contract topic messageId)).
    intros [E|[E|E]]; injection E as <- _; reflexivity.
Qed.

End LifecycleFacts.

(** ** The adapter over the storage engine of the specification *)

Module SpecStoreFacts.

Import SpecStore.





Lemma GenerateID_nil now e :
  GenerateID now e = None
  <-> Contract e = 0 /\ len (Topic e) = 0%nat /\ len (Payload e) = 0%nat.
Proof.
  unfold GenerateID.
  destruct (Z.eqb_spec (Contract e) 0) as [C|C];
    destruct (Nat.eqb_spec (len (Topic e)) 0) as [T|T];
    destruct (Nat.eqb_spec (len (Payload e)) 0) as [P|P]; simpl;
    split; intro X; try discriminate; try tauto.
Qed.

(** C8.  Over the IDGenerator of the specification, [GenID] fails, with the
    empty-key error and a nil id, exactly when contract, topic and payload
    are all empty; for any other input it returns an id that is not nil
    together with a nil error; and it never returns a nil id with a nil
    error. *)
Theorem GenID_fails_iff_all_empty (now : Z) (contract : Z) (topic payload : bytes) :
  (GenID now contract topic payload = (None, Some (errors_New "Key is empty."))
   <-> contract = 0 /\ len topic = 0%nat /\ len payload = 0%nat)
  /\ (~ (contract = 0 /\ len topic = 0%nat /\ len payload = 0%nat) ->
      exists id, GenID now contract topic payload = (Some id, None))
  /\ GenID now contract topic payload <> (None, None).
Proof.
  unfold GenID. simpl.
  pose proof (GenerateID_nil now
    {| ID := None; Topic := topic; Payload := payload; Contract := contract |}) as G.
  simpl in G.
  destruct (GenerateID now _) as [i|].
  - split; [|split].
    + split; [discriminate|]. intro X. apply G in X. discriminate.
    + intros _. now exists i.
    + discriminate.
  - split; [|split].
    + split; [intros _; now apply G|reflexivity].
    + intro N. exfalso. apply N. now apply G.
    + discriminate.
Qed.


(** C1, on the code.  The store holds 1025 entries under contract 1 and
    topic "a".  [Get] with limit 1025 returns 1025 payloads and with limit
    1024 returns 1024: the limit reaches the query as it is, and
    [maxResults] is not applied. *)
Theorem Get_limit_not_clamped :
  (exists m, Get 2000 (filled 1025) 1 (bytes_of_string "a") 1025 [] = Returns (m, None, [])
             /\ List.length m = 1025%nat)
  /\ (exists m, Get 2000 (filled 1025) 1 (bytes_of_string "a") 1024 [] = Returns (m, None, [])
                /\ List.length m = 1024%nat)
  /\ ~ limit_clamped.
Proof.
  assert (E1 : exists m,
             Get 2000 (filled 1025) 1 (bytes_of_string "a") 1025 [] = Returns (m, None, [])
             /\ List.length m = 1025%nat).
  { eexists. split; vm_compute; reflexivity. }
  assert (E2 : exists m,
             Get 2000 (filled 1025) 1 (bytes_of_string "a") 1024 [] = Returns (m, None, [])
             /\ List.length m = 1024%nat).
  { eexists. split; vm_compute; reflexivity. }
  split; [exact E1|]. split; [exact E2|].
  intro C.
  destruct E1 as [m1 [G1 L1]], E2 as [m2 [G2 L2]].
  assert (M : Get 2000 (filled 1025) 1 (bytes_of_string "a") 1025 []
              = Get 2000 (filled 1025) 1 (bytes_of_string "a") maxResults []).
  { apply C. unfold maxResults. lia. }
  unfold maxResults in M. rewrite G1, G2 in M.
  injection M as M. subst m2. lia.
Qed.

End SpecStoreFacts.

Module SpecStoreRuns.

Import SpecStore.


End SpecStoreRuns.

(** ** Runs of the adapter over the scripted database *)

Module ScriptedRuns.

Import Scripted.

(** The query breaks on its second entry, after "x" was collected: [Get]
    returns the error and no payload, not the payload "x". *)
Lemma partial_results_discarded :
  Get 5 (connected breaks_mid_scan) 1 (bytes_of_string "a") 10 []
  = Returns ([], Some io_error,
             [("adapter.Query", "unable to query db: input/output error")])
  /\ ~ partial_results_returned.
Proof.
  split; [reflexivity|].
  intro C.
  destruct (C storage 5%nat (connected breaks_mid_scan) breaks_mid_scan
              1 (bytes_of_string "a") 10 []
              [item "x"; failing io_error; item "z"] None 1%nat io_error)
    as [lg' G]; try reflexivity; try lia.
  - intros i Hi. assert (i = 0%nat) as -> by lia. split; reflexivity.
  - vm_compute in G. discriminate G.
Qed.

Lemma Get_error_discards_partial_results_run :
  Get 5 (connected breaks_mid_scan) 1 (bytes_of_string "a") 10 []
  = Returns ([], Some io_error,
             [("adapter.Query", "unable to query db: input/output error")]).
Proof.
  apply (@Get_error_discards_partial_results storage 5%nat
           (connected breaks_mid_scan) breaks_mid_scan 1 (bytes_of_string "a") 10 []
           [item "x"; failing io_error; item "z"] None 1%nat io_error).
  - reflexivity.
  - reflexivity.
  - intros i Hi. destruct i as [|i]; [split; reflexivity|lia].
  - reflexivity.
  - reflexivity.
  - lia.
Defined.

(** [Items] fails: with a nil iterator [Get] panics, with an invalid one it
    returns nothing and no error. *)
Lemma Get_drops_Items_error_run :
  Get 5 (connected items_fail_nil) 1 (bytes_of_string "a") 10 [] = Panics
  /\ Get 5 (connected items_fail_invalid) 1 (bytes_of_string "a") 10 []
     = Returns ([], None, []).
Proof.
  split.
  - apply (@Get_drops_Items_error storage 5%nat (connected items_fail_nil) items_fail_nil
             1 (bytes_of_string "a") 10 [] None io_error);
      [reflexivity|reflexivity|exact I|lia].
  - apply (@Get_drops_Items_error storage 5%nat (connected items_fail_invalid)
             items_fail_invalid 1 (bytes_of_string "a") 10 [] (Some []) io_error);
      [reflexivity|reflexivity|reflexivity|lia].
Defined.


(** On a connected adapter [Open] fails although the configuration parses
    and the database would open. *)
Lemma Open_fails_when_connected :
  Open (connected good) "{}" (env_of healthy)
  = (connected good, env_of healthy,
     Some (errors_New "tracedb adapter is already connected"))
  /\ json_Unmarshal "{}" = inr {| Dir := ""; ValueDir := "" |}
  /\ tracedb_Open "/trace" healthy = (healthy, (Some good, None))
  /\ ~ Open_fails_only_on_parse_or_open.
Proof.
  repeat (split; [reflexivity|]).
  intro C.
  destruct (C storage host (connected good) "{}" (env_of healthy)
              (connected good) (env_of healthy)
              (errors_New "tracedb adapter is already connected") eq_refl)
    as [[perr P]|[config [w1 [mkerr [w2 [d [P [M O]]]]]]]].
  - discriminate P.
  - simpl in P. injection P as <-. simpl in M. injection M as <- <-.
    simpl in O. discriminate O.
Qed.

(** The directory cannot be created, the database opens: [Open] succeeds,
    and the failure is in the log. *)
Lemma Open_error_sources_run :
  exists lg,
    Open fresh "{}" (env_of no_mkdir)
    = (connected good, {| world := no_mkdir; logged := lg |}, None)
    /\ In ("adapter.Open", "Unable to create db dir") lg.
Proof.
  destruct (@Open_error_sources storage host fresh "{}" (env_of no_mkdir) eq_refl)
    as [_ W].
  destruct (W {| Dir := ""; ValueDir := "" |} no_mkdir
              (Some (errors_New "permission denied")) no_mkdir (Some good) None
              eq_refl eq_refl eq_refl) as [lg [E [M _]]].
  exists lg. split; [exact E|]. apply M. discriminate.
Defined.

Lemma Open_twice_fails_run :
  Open (connected good) "{}" (env_of healthy)
  = (connected good, env_of healthy,
     Some (errors_New "tracedb adapter is already connected")).
Proof.
  exact (@Open_twice_fails storage host (connected good) good "{}" (env_of healthy) eq_refl).
Defined.

Lemma Close_closed_is_noop_run :
  Close fresh (env_of healthy) = (fresh, env_of healthy, None).
Proof.
  exact (@Close_closed_is_noop storage host fresh (env_of healthy) eq_refl).
Defined.

Lemma host_yields_handle : Open_yields_handle host.
Proof.
  intros path w w' d. simpl. destruct (open_result w) as [d0|e]; intro E.
  - injection E as _ <-. discriminate.
  - discriminate E.
Defined.

(** Open, then Close, on the scripted host. *)
Lemma IsOpen_tracks_handle_run :
  IsOpen (fresh : adapter) = false
  /\ IsOpen (fst (fst (Open fresh "{}" (env_of healthy)))) = true
  /\ IsOpen (fst (fst (Close (connected good) (env_of healthy)))) = false.
Proof.
  destruct (@IsOpen_tracks_handle storage host host_yields_handle)
    as [_ [F [O [C _]]]].
  split; [exact F|]. split; [|exact (C (connected good) (env_of healthy))].
  exact (proj2 (O fresh "{}" (env_of healthy) (connected good) (env_of healthy) eq_refl)).
Defined.

End ScriptedRuns.

(** ** Further properties of the adapter over any database *)

Section ScanFacts.

Context {L : Storage}.

(** X1.  A scan that meets no error: when the iterator [Items] hands back has
    [k] valid positions without error and is not valid after them, [Get]
    returns the [k] payloads in the order of the iteration, with a nil
    error, and logs nothing.  With [k = 0] this is the empty result. *)
Theorem Get_complete_scan fuel a d contract topic limit lg it ierr k :
  db a = Some d ->
  DB_Items d (query_of contract topic limit) = (Some it, ierr) ->
  clean_prefix k (It_First it) ->
  It_Valid (advance k (It_First it)) = false ->
  (k < fuel)%nat ->
  Get fuel a contract topic limit lg = Returns (collected k (It_First it), None, lg).
Proof.
  intros A I C V F.
  rewrite Get_open with (d := d) by assumption. rewrite I. simpl.
  now rewrite Get_loop_complete with (k := k).
Qed.

Lemma uint32_add_mul (limit n : Z) : uint32 (limit + n * 2 ^ 32) = uint32 limit.
Proof. unfold uint32. apply Z.mod_add. lia. Qed.

Lemma uint32_small (limit : Z) : 0 <= limit < 2 ^ 32 -> uint32 limit = limit.
Proof. intro R. unfold uint32. now apply Z.mod_small. Qed.

(** X2.  The limit of [Get] counts modulo 2^32: [uint32(limit)] is what reaches
    the query, so two limits that differ by a multiple of 2^32 give the
    same result; a limit of 2^32 asks for 0 entries and a limit of -1 for
    4294967295. *)
Theorem Get_limit_wraps fuel a contract topic limit lg :
  (forall n, Get fuel a contract topic (limit + n * 2 ^ 32) lg
             = Get fuel a contract topic limit lg)
  /\ Get fuel a contract topic (2 ^ 32) lg = Get fuel a contract topic 0 lg
  /\ Get fuel a contract topic (-1) lg = Get fuel a contract topic 4294967295 lg.
Proof.
  split; [|split].
  - intro n. apply Get_limit_uint32, uint32_add_mul.
  - apply Get_limit_uint32. reflexivity.
  - apply Get_limit_uint32. reflexivity.
Qed.

Lemma Get_loop_result fuel : forall it matches lg m err lg',
  Get_loop fuel it matches lg = Returns (m, err, lg') ->
  (err = None /\ lg' = lg /\ exists more, m = (matches ++ more)%list)
  \/ (exists e, err = Some e /\ m = []
                /\ lg' = log_Error "adapter.Query" ("unable to query db: " ++ Error e) lg).
Proof.
  induction fuel as [|fuel IH]; intros it matches lg m err lg' G; simpl in G;
    [discriminate|].
  destruct (It_Valid it).
  - destruct (It_Error it) as [e|].
    + injection G as <- <- <-. right. now exists e.
    + apply IH in G. destruct G as [[E [Lg [more M]]]|G]; [left|now right].
      repeat split; try assumption.
      exists (It_Item_Value it :: more). now rewrite M, <- app_assoc.
  - injection G as <- <- <-. left. repeat split. exists []. now rewrite app_nil_r.
Qed.

(** X3.  [Get] never returns payloads together with an error.  When it returns
    a nil error the log is as before; when it returns an error the payload
    sequence is nil and the log has one more line, which carries the
    message of the error. *)
Theorem Get_payloads_or_error fuel a contract topic limit lg m err lg' :
  Get fuel a contract topic limit lg = Returns (m, err, lg') ->
  (err = None /\ lg' = lg)
  \/ (exists e, err = Some e /\ m = []
                /\ lg' = log_Error "adapter.Query" ("unable to query db: " ++ Error e) lg).
Proof.
  unfold Get. destruct (db a) as [d|]; [|discriminate].
  destruct (DB_Items d _) as [[it|] ierr]; simpl; [|discriminate].
  intro G. apply Get_loop_result in G.
  destruct G as [[E [Lg _]]|G]; [now left|now right].
Qed.



(** X5.  [GenID] fails, with the message "Key is empty." and a nil id, exactly
    when [message.GenID] yields a nil id for the entry made of contract,
    topic and payload; any other id it hands on unchanged with a nil
    error. *)
Theorem GenID_passes_library_id (now : Clock) contract topic payload :
  let e := {| ID := None; Topic := topic; Payload := payload; Contract := contract |} in
  (GenID now contract topic payload = (None, Some (errors_New "Key is empty."))
   <-> m_GenID now e = None)
  /\ (forall i, GenID now contract topic payload = (Some i, None)
                <-> m_GenID now e = Some i).
Proof.
  unfold GenID. simpl. destruct (m_GenID now _) as [i|]; split.
  - split; discriminate.
  - intro j. split; intro E; [now injection E as ->|now injection E as ->].
  - split; reflexivity.
  - intro j. split; discriminate.
Qed.

End ScanFacts.

Section SequenceFacts.

Context {L : Storage} {H : Host L}.

(** X6.  [Close] twice: whatever the first [Close] did and returned, a second
    one returns a nil error and changes neither the adapter nor the world
    nor the log. *)
Theorem Close_twice (a : adapter) (env env2 : Env) :
  Close (fst (fst (Close a env))) env2 = (fst (fst (Close a env)), env2, None).
Proof.
  unfold Close at 1. now rewrite Close_closes.
Qed.


(** X8.  [Close] releases what [Open] stored.  When [tracedb.Open] hands back a
    handle, with or without an error, [Open] stores it, and a [Close] right
    after it calls [db.Close] on that handle in the world [tracedb.Open]
    left, returns the error of that call, and leaves the adapter without
    handle and with version -1; the log is the one [Open] left. *)
Theorem Open_then_Close
        (a : adapter) jsonconfig (env : Env) config w1 mkerr w2 d oerr :
  db a = None ->
  json_Unmarshal jsonconfig = inr config ->
  os_MkdirAll (Dir config) 511 (world env) = (w1, mkerr) ->
  tracedb_Open (Dir config ++ "/" ++ defaultDatabase) w1 = (w2, (Some d, oerr)) ->
  Close (fst (fst (Open a jsonconfig env))) (snd (fst (Open a jsonconfig env)))
  = ({| db := None; version := -1 |},
     {| world := fst (DB_Close d w2);
        logged := logged (snd (fst (Open a jsonconfig env))) |},
     snd (DB_Close d w2)).
Proof.
  intros A P M O.
  destruct (Open_closed_parsed a jsonconfig env A P M O) as [lg [E _]].
  rewrite E. unfold Close. simpl.
  now destruct (DB_Close d w2).
Qed.

(** X9.  A failed [Open] can be retried: when [Open] returns an error, and the
    library hands back no handle together with an error, the adapter is
    the one [Open] was called on. *)
Theorem Open_failure_keeps_adapter (a : adapter) jsonconfig (env : Env) a' env' e :
  (forall path w w' d e', tracedb_Open path w = (w', (d, Some e')) -> d = None) ->
  Open a jsonconfig env = (a', env', Some e) ->
  a' = a.
Proof.
  intros Y. unfold Open. destruct (db a) as [d0|] eqn:A.
  - intro E. now injection E as <- _ _.
  - destruct (json_Unmarshal jsonconfig) as [perr|config].
    + intro E. now injection E as <- _ _.
    + destruct (os_MkdirAll (Dir config) 511 (world env)) as [w1 mkerr].
      destruct (tracedb_Open (Dir config ++ "/" ++ defaultDatabase) w1)
        as [w2 [d [e'|]]] eqn:O; [|discriminate].
      apply Y in O. subst d. intro E. injection E as <- _ _.
      destruct a as [da va]. simpl in A. now subst da.
Qed.

Lemma Open_keeps_version (a : adapter) jsonconfig (env : Env) :
  version (fst (fst (Open a jsonconfig env))) = version a.
Proof.
  unfold Open. destruct (db a); [reflexivity|].
  destruct (json_Unmarshal jsonconfig) as [perr|config]; [reflexivity|].
  destruct (os_MkdirAll (Dir config) 511 (world env)) as [w1 mkerr].
  destruct (tracedb_Open (Dir config ++ "/" ++ defaultDatabase) w1) as [w2 [d' [e|]]];
    reflexivity.
Qed.

(** X10.  [Open] after [Close] does not restore the version: once an open
    adapter was closed, its version is -1 after any later [Open], whether
    that [Open] succeeds or fails. *)
Theorem reopen_keeps_version (a : adapter) (d : DB) (env env2 : Env) jsonconfig :
  db a = Some d ->
  version (fst (fst (Open (fst (fst (Close a env))) jsonconfig env2))) = -1.
Proof.
  intro A. rewrite Open_keeps_version. unfold Close. rewrite A.
  now destruct (DB_Close d (world env)).
Qed.

Lemma run_call_version (c : call) (a : adapter) (env : Env) a' env' :
  run_call c a env = Returns (a', env') ->
  version a' = version a \/ version a' = -1.
Proof.
  destruct c; simpl.
  - pose proof (Open_keeps_version a jsonconfig env) as V.
    destruct (Open a jsonconfig env) as [[a1 env1] err].
    intro E. injection E as <- _. now left.
  - unfold Close. destruct (db a) as [d|].
    + destruct (DB_Close d (world env)). intro E. injection E as <- _. now right.
    + intro E. injection E as <- _. now left.
  - unfold Put. destruct (db a) as [d|]; [|discriminate].
    destruct (DB_Batch d _). simpl. intro E. injection E as <- _. now left.
  - unfold PutWithID. destruct (db a) as [d|]; [|discriminate].
    destruct (DB_Batch d _). simpl. intro E. injection E as <- _. now left.
  - destruct (Get fuel a contract topic limit (logged env)) as [[[m err] lg]| |];
      try discriminate.
    intro E. injection E as <- _. now left.
  - unfold Delete. destruct (db a) as [d|]; [|discriminate].
    destruct (DB_Batch d _). simpl. intro E. injection E as <- _. now left.
Qed.

(** X11.  The version of the adapter is written by [Close] only, and only to -1:
    after any sequence of calls that does not panic, the version is the one
    before the sequence or -1; on the adapter [init] registers it is 0 or
    -1. *)
Theorem version_written_by_Close_only (cs : list call) :
  forall (a : adapter) (env : Env) a' env',
    run_calls cs a env = Returns (a', env') ->
    version a' = version a \/ version a' = -1.
Proof.
  induction cs as [|c cs IH]; intros a env a' env' R; simpl in R.
  - injection R as <- _. now left.
  - destruct (run_call c a env) as [[a1 env1]| |] eqn:C; try discriminate.
    apply run_call_version in C. apply IH in R.
    destruct R as [R|R]; [|now right]. rewrite R. exact C.
Qed.

Lemma run_call_log (c : call) (a : adapter) (env : Env) a' env' :
  run_call c a env = Returns (a', env') ->
  exists extra, logged env' = (logged env ++ extra)%list.
Proof.
  destruct c; simpl.
  - unfold Open. destruct (db a).
    + intro E. injection E as _ <-. exists []. now rewrite app_nil_r.
    + destruct (json_Unmarshal jsonconfig) as [perr|config].
      * intro E. injection E as _ <-. exists []. now rewrite app_nil_r.
      * destruct (os_MkdirAll (Dir config) 511 (world env)) as [w1 mkerr].
        destruct (tracedb_Open (Dir config ++ "/" ++ defaultDatabase) w1)
          as [w2 [d' [e|]]]; intro E; injection E as _ <-; simpl;
          destruct mkerr; unfold log_Error; rewrite <- ?app_assoc;
          eexists; try reflexivity; now rewrite app_nil_r.
  - unfold Close. destruct (db a) as [d|].
    + destruct (DB_Close d (world env)). intro E. injection E as _ <-.
      exists []. simpl. now rewrite app_nil_r.
    + intro E. injection E as _ <-. exists []. now rewrite app_nil_r.
  - destruct (Put a contract topic payload) as [[a1 e]| |]; try discriminate.
    intro E. injection E as _ <-. exists []. now rewrite app_nil_r.
  - destruct (PutWithID a contract topic messageId payload) as [[a1 e]| |];
      try discriminate.
    intro E. injection E as _ <-. exists []. now rewrite app_nil_r.
  - destruct (Get fuel a contract topic limit (logged env)) as [[[m err] lg]| |] eqn:G;
      try discriminate.
    intro E. injection E as _ <-. simpl.
    unfold Get in G. destruct (db a) as [d|]; [|discriminate].
    destruct (DB_Items d _) as [[it|] ierr]; simpl in G; [|discriminate].
    apply Get_loop_result in G.
    destruct G as [[_ [-> _]]|[e [_ [_ ->]]]].
    + exists []. now rewrite app_nil_r.
    + unfold log_Error. now eexists.
  - destruct (Delete a contract topic messageId) as [[a1 e]| |]; try discriminate.
    intro E. injection E as _ <-. exists []. now rewrite app_nil_r.
Qed.

(** X12.  The adapter only appends to the log: after any sequence of calls that
    does not panic, the log starts with the log before the sequence. *)
Theorem log_append_only (cs : list call) :
  forall (a : adapter) (env : Env) a' env',
    run_calls cs a env = Returns (a', env') ->
    exists extra, logged env' = (logged env ++ extra)%list.
Proof.
  induction cs as [|c cs IH]; intros a env a' env' R; simpl in R.
  - injection R as _ <-. exists []. now rewrite app_nil_r.
  - destruct (run_call c a env) as [[a1 env1]| |] eqn:C; try discriminate.
    apply run_call_log in C. apply IH in R.
    destruct C as [x1 C], R as [x2 R]. exists (x1 ++ x2)%list.
    now rewrite R, C, app_assoc.
Qed.

End SequenceFacts.

(** ** Further runs over the scripted database *)

Module MoreScriptedRuns.

Import Scripted.

Lemma Get_complete_scan_run :
  Get 5 (connected good) 1 (bytes_of_string "a") 10 []
  = Returns ([bytes_of_string "x"; bytes_of_string "y"], None, []).
Proof.
  apply (@Get_complete_scan storage 5%nat (connected good) good 1 (bytes_of_string "a")
           10 [] [item "x"; item "y"] None 2%nat).
  - reflexivity.
  - reflexivity.
  - intros i Hi. destruct i as [|[|i]]; [split; reflexivity|split; reflexivity|lia].
  - reflexivity.
  - lia.
Defined.

Lemma Get_payloads_or_error_run :
  (Some io_error = None
   /\ [("adapter.Query", "unable to query db: input/output error")] = [])
  \/ (exists e,
         Some io_error = Some e /\ @nil collection_Payload = []
         /\ [("adapter.Query", "unable to query db: input/output error")]
            = log_Error "adapter.Query" ("unable to query db: " ++ Error e) []).
Proof.
  exact (@Get_payloads_or_error storage 5%nat (connected breaks_mid_scan) 1
           (bytes_of_string "a") 10 [] [] (Some io_error)
           [("adapter.Query", "unable to query db: input/output error")] eq_refl).
Defined.


Lemma Open_then_Close_run :
  Close (fst (fst (Open fresh "{}" (env_of healthy))))
        (snd (fst (Open fresh "{}" (env_of healthy))))
  = ({| db := None; version := -1 |}, env_of healthy, None).
Proof.
  exact (@Open_then_Close storage host fresh "{}" (env_of healthy)
           {| Dir := ""; ValueDir := "" |} healthy None healthy good None
           eq_refl eq_refl eq_refl eq_refl).
Defined.

Lemma host_no_handle_with_error :
  forall path (w w' : SWorld) (d : option SDB) (e' : error),
    tracedb_Open path w = (w', (d, Some e')) -> d = None.
Proof.
  intros path w w' d e'. simpl. destruct (open_result w) as [d0|e]; intro E.
  - discriminate E.
  - now injection E as _ <- _.
Defined.

(** The database does not open: the adapter is the fresh one still. *)
Lemma Open_failure_keeps_adapter_run :
  fst (fst (Open fresh "{}" (env_of no_open))) = fresh.
Proof.
  apply (@Open_failure_keeps_adapter storage host fresh "{}" (env_of no_open)
           (fst (fst (Open fresh "{}" (env_of no_open))))
           (snd (fst (Open fresh "{}" (env_of no_open))))
           io_error host_no_handle_with_error).
  reflexivity.
Defined.

Lemma reopen_keeps_version_run :
  version (fst (fst (Open (fst (fst (Close (connected good) (env_of healthy))))
                          "{}" (env_of healthy)))) = -1.
Proof.
  exact (@reopen_keeps_version storage host (connected good) good
           (env_of healthy) (env_of healthy) "{}" eq_refl).
Defined.

(** Open, Put, Close, Open again: the version ends at -1. *)
Lemma version_written_by_Close_only_run :
  version (@Build_adapter storage (Some good) (-1)) = version (@fresh storage)
  \/ version (@Build_adapter storage (Some good) (-1)) = -1.
Proof.
  apply (@version_written_by_Close_only storage host
           [CallOpen "{}"; CallPut 1 (bytes_of_string "a") (bytes_of_string "x");
            CallClose; CallOpen "{}"]
           fresh (env_of healthy) (@Build_adapter storage (Some good) (-1))
           (env_of healthy)).
  reflexivity.
Defined.

(** Open with a directory that cannot be created, then a query that
    breaks: two lines are added to the log. *)
Lemma log_append_only_run :
  exists extra,
    [("adapter.Open", "Unable to create db dir");
     ("adapter.Query", "unable to query db: input/output error")]
    = ([] ++ extra)%list.
Proof.
  apply (@log_append_only storage host
           [CallOpen "{}"; CallGet 5 1 (bytes_of_string "a") 10]
           fresh
           (env_of {| mkdir_err := Some (errors_New "permission denied");
                      open_result := inl breaks_mid_scan |})
           (connected breaks_mid_scan)
           (@Build_Env storage host
              {| mkdir_err := Some (errors_New "permission denied");
                 open_result := inl breaks_mid_scan |}
              [("adapter.Open", "Unable to create db dir");
               ("adapter.Query", "unable to query db: input/output error")])).
  reflexivity.
Defined.

End MoreScriptedRuns.

Section ConfigFacts.

Context {L : Storage} {H : Host L}.

(** X13.  Of the configuration [Open] uses the directory only: two documents
    that decode to configurations with the same [dir] give the same result,
    whatever their [value_dir]. *)
Theorem Open_ignores_ValueDir (a : adapter) (env : Env) jsonconfig1 jsonconfig2 c1 c2 :
  json_Unmarshal jsonconfig1 = inr c1 ->
  json_Unmarshal jsonconfig2 = inr c2 ->
  Dir c1 = Dir c2 ->
  Open a jsonconfig1 env = Open a jsonconfig2 env.
Proof.
  intros P1 P2 D. unfold Open. now rewrite P1, P2, D.
Qed.


End ConfigFacts.

Module ConfigRuns.

Import Scripted.

Lemma Open_ignores_ValueDir_run :
  Open fresh TwoConfigs.plain (@Build_Env storage TwoConfigs.host healthy [])
  = Open fresh TwoConfigs.with_values (@Build_Env storage TwoConfigs.host healthy []).
Proof.
  exact (@Open_ignores_ValueDir storage TwoConfigs.host fresh
           (@Build_Env storage TwoConfigs.host healthy [])
           TwoConfigs.plain TwoConfigs.with_values
           {| Dir := "data"; ValueDir := "" |} {| Dir := "data"; ValueDir := "values" |}
           eq_refl eq_refl eq_refl).
Defined.


End ConfigRuns.
